(** * Bayesian decision theory notebook: asymmetric loss and optimal predictions

    A shallow embedding of the code cells of
    [bayesian-methods-ml-decision-theory.ipynb].

    Numbers.  The notebook computes with numpy [float64] values.  They are
    idealised here as exact rationals [Q]: rounding, overflow and signed
    zeros are outside the model.  The one non-finite value the code can
    produce from finite inputs, the [nan] that [ndarray.mean] returns on an
    empty array, is kept as an explicit constructor.  Equalities between
    computed numbers are Leibniz equalities where both sides are built by the
    same operations and [Qeq] (written [==]) otherwise.

    Arrays.  One-dimensional [ndarray]s of floats are lists of [Q].  The numpy
    operations the notebook uses are written out with the conditions under
    which numpy raises, so that "does not raise" is a statement about the
    model and not a feature of its types.

    Collaborators.  The random source, [pm.Normal.dist(...).random()] and
    [scipy.optimize.fmin] are library code; they are Section variables. *)

From Stdlib Require Import QArith Qabs Qminmax Lqa Lia.
From stdpp Require Import base list.

Open Scope Q_scope.

(** ** Python exceptions as an error monad *)

Inductive exn : Type :=
| ValueError
| IndexError.

Inductive py (A : Type) : Type :=
| Ok (x : A)
| Raise (e : exn).

Arguments Ok {A} x.
Arguments Raise {A} e.

Definition bind {A B : Type} (c : py A) (k : A -> py B) : py B :=
  match c with
  | Ok x => k x
  | Raise e => Raise e
  end.

Notation "'do' x <- c ; k" := (bind c (fun x => k))
  (at level 10, x name, c at level 100, k at level 200).

Fixpoint mapM_py {A B : Type} (f : A -> py B) (l : list A) : py (list B) :=
  match l with
  | [] => Ok []
  | x :: l' => do y <- f x; do ys <- mapM_py f l'; Ok (y :: ys)
  end.

(** ** The numpy operations used by the notebook *)

(** A float scalar as returned by a reduction: finite, or [nan]. *)
Inductive scalar : Type :=
| Finite (q : Q)
| NaN.

(** The comparison [x < y] on floats, as a boolean. *)
Definition Qltb (x y : Q) : bool :=
  if Qlt_le_dec x y then true else false.

(** [np.sign]: -1, 0 or 1. *)
Definition np_sign (x : Q) : Q :=
  if Qltb x 0 then -1 else if Qltb 0 x then 1 else 0.

(** [np.abs]. *)
Definition np_abs (x : Q) : Q := Qabs x.

(** [np.zeros_like(a)] for a float array [a]. *)
Definition np_zeros_like (a : list Q) : list Q := replicate (length a) 0.

(** Element-wise binary operation on two 1-d arrays with numpy's
    broadcasting: equal shapes are combined pointwise, a one-element array
    is stretched, anything else raises [ValueError]. *)
Definition broadcast2 (f : Q -> Q -> Q) (x y : list Q) : py (list Q) :=
  if Nat.eqb (length x) (length y) then Ok (zip_with f x y)
  else match x, y with
       | [c], _ => Ok (map (f c) y)
       | _, [c] => Ok (map (fun v => f v c) x)
       | _, _ => Raise ValueError
       end.

Definition np_add : list Q -> list Q -> py (list Q) := broadcast2 Qplus.

(** Number of [True] entries of a boolean mask. *)
Definition count_true (ix : list bool) : nat :=
  length (filter (fun c => c = true) ix).

(** The entries of [a] at the positions where the mask holds. *)
Fixpoint mask_select (a : list Q) (ix : list bool) : list Q :=
  match a, ix with
  | x :: a', c :: ix' =>
      if c then x :: mask_select a' ix' else mask_select a' ix'
  | _, _ => []
  end.

(** [a[ix]] for a boolean mask [ix]: the mask must have the shape of [a]. *)
Definition getitem_mask (a : list Q) (ix : list bool) : py (list Q) :=
  if Nat.eqb (length ix) (length a) then Ok (mask_select a ix)
  else Raise IndexError.

(** Writes [vals], in order, to the positions of [dst] where the mask
    holds. *)
Fixpoint mask_put (dst : list Q) (ix : list bool) (vals : list Q) : list Q :=
  match dst, ix with
  | d :: dst', c :: ix' =>
      if c then
        match vals with
        | v :: vals' => v :: mask_put dst' ix' vals'
        | [] => d :: mask_put dst' ix' []
        end
      else d :: mask_put dst' ix' vals
  | _, _ => dst
  end.

(** [dst[ix] = vals] for a boolean mask [ix], returning the updated array:
    the mask must have the shape of [dst]; [vals] must supply one value per
    selected position, or be a single value that is stretched. *)
Definition setitem_mask (dst : list Q) (ix : list bool) (vals : list Q)
  : py (list Q) :=
  if negb (Nat.eqb (length ix) (length dst)) then Raise IndexError
  else if Nat.eqb (length vals) (count_true ix) then Ok (mask_put dst ix vals)
  else match vals with
       | [v] => Ok (mask_put dst ix (replicate (count_true ix) v))
       | _ => Raise ValueError
       end.

(** [dst[i] = v] for an integer index [i >= 0]. *)
Definition setitem_int (dst : list Q) (i : nat) (v : Q) : py (list Q) :=
  if Nat.ltb i (length dst) then Ok (<[i:=v]> dst) else Raise IndexError.

Definition Qsum (a : list Q) : Q := fold_right Qplus 0 a.

(** [a.mean()]: the sum over the number of entries; [nan] (with a warning,
    not an exception) on the empty array. *)
Definition np_mean (a : list Q) : scalar :=
  match a with
  | [] => NaN
  | _ :: _ => Finite (Qsum a / inject_Z (Z.of_nat (length a)))
  end.

(** [a.min()] and [a.max()]: numpy raises [ValueError] on an empty array. *)
Definition np_min (a : list Q) : py Q :=
  match a with
  | [] => Raise ValueError
  | x :: a' => Ok (fold_left Qmin a' x)
  end.

Definition np_max (a : list Q) : py Q :=
  match a with
  | [] => Raise ValueError
  | x :: a' => Ok (fold_left Qmax a' x)
  end.

(** Modelled from the spec: [np.linspace] is numpy library code, absent from
    the repository.  The spec asks for a deterministic grid, evenly spaced
    over the range; this follows numpy's construction: [num - 1] steps of
    size [(stop - start) / (num - 1)] from [start], the last point set to
    [stop]. *)
Definition np_linspace (start stop : Q) (num : nat) : list Q :=
  match num with
  | O => []
  | S O => [start]
  | S div =>
      let step := (stop - start) / inject_Z (Z.of_nat div) in
      map (fun i => inject_Z (Z.of_nat i) * step + start) (seq 0 div)
        ++ [stop]
  end.

(** ** The loss function (cell "Define a loss function") *)

(** Default of the keyword argument [alpha] of [stock_loss]. *)
Definition stock_loss_alpha : Q := 100.

(** [stock_loss(true_return, prediction, alpha=100.)]; [None] for [alpha]
    is a call that leaves the keyword argument out. *)
Definition stock_loss (true_return prediction : Q) (alpha : option Q) : Q :=
  let alpha := default stock_loss_alpha alpha in
  if Qltb (true_return * prediction) 0
  then alpha * prediction ^ 2 - np_sign true_return * prediction
       + np_abs true_return
  else np_abs (true_return - prediction).

(** ** The vectorised loss (cell "Predicting the optimal returns") *)

(** Default of the keyword argument [alpha] of [vectorised_stock_loss]. *)
Definition vectorised_stock_loss_alpha : Q := 500.

(** [vectorised_stock_loss(true_return, prediction, alpha=500.)] for an
    array [true_return] and a scalar [prediction].  The in-place updates of
    [loss] are threaded as [loss0], [loss1], [loss2]. *)
Definition vectorised_stock_loss
  (true_return : list Q) (prediction : Q) (alpha : option Q) : py (list Q) :=
  let alpha := default vectorised_stock_loss_alpha alpha in
  let loss0 := np_zeros_like true_return in
  let ix := map (fun t => Qltb (t * prediction) 0) true_return in
  do sel_sign <- getitem_mask true_return ix;
  do sel_abs <- getitem_mask true_return ix;
  do rhs <- np_add
           (map (fun v => alpha * prediction ^ 2 - v)
              (map (fun s => s * prediction) (map np_sign sel_sign)))
           (map np_abs sel_abs);
  do loss1 <- setitem_mask loss0 ix rhs;
  let nix := map negb ix in
  do sel_rest <- getitem_mask true_return nix;
  do loss2 <- setitem_mask loss1 nix
                (map np_abs (map (fun t => t - prediction) sel_rest));
  Ok loss2.

(** ** The posterior trace (cells "Modelling") *)

(** One draw of the sampler: a value for each of [a], [b] and [sigma]. *)
Record point : Type := { pt_a : Q; pt_b : Q; pt_sigma : Q }.

(** Number of draws asked of [pm.sample] and start of the slice
    [trace[20000:]]. *)
Definition draws : nat := Z.to_nat 100000.
Definition burn_in : nat := Z.to_nat 20000.

(** [pm.Normal.dist(mu=mu, sd=sd)] with a vector of scales. *)
Record Normal_dist : Type := { dist_mu : Q; dist_sd : list Q }.

Section Notebook.

(** The random source and a single draw from [Normal(mu, sd)]. *)
Context {rng : Type}.
Variable normal_random : Q -> Q -> rng -> Q * rng.

(** [scipy.optimize.fmin(func, x0, disp=False)]: the objective may raise,
    and so may the minimiser. *)
Variable fmin : (Q -> py scalar) -> Q -> py Q.

(** The notebook's global data: the observed signals and the trace
    returned by [pm.sample]. *)
Variable X : list Q.
Variable trace : list point.

(** [burned_trace = trace[20000:]] *)
Definition burned_trace : list point := drop burn_in trace.

(** [burned_trace['a']], [burned_trace['b']], [burned_trace['sigma']] *)
Definition a_samples : list Q := map pt_a burned_trace.
Definition b_samples : list Q := map pt_b burned_trace.
Definition sigma_trace : list Q := map pt_sigma burned_trace.

Definition num_samples : nat := length a_samples.

(** [dist.random()]: one draw per entry of the scale vector, each with its
    own scale, threading the random source. *)
Fixpoint random_each (mu : Q) (sd : list Q) (g : rng) : list Q * rng :=
  match sd with
  | [] => ([], g)
  | s :: sd' =>
      let (x, g1) := normal_random mu s g in
      let (xs, g2) := random_each mu sd' g1 in
      (x :: xs, g2)
  end.

Definition dist_random (d : Normal_dist) (g : rng) : list Q * rng :=
  random_each (dist_mu d) (dist_sd d) g.

Definition noise_generator : Normal_dist :=
  {| dist_mu := 0; dist_sd := sigma_trace |}.

(** The cell [noise = noise_generator.random()]. *)
Definition noise_cell (g : rng) : list Q * rng :=
  dist_random noise_generator g.

(** [returns_population = lambda signal: a_samples + b_samples*signal + noise];
    the global [noise] it reads is a parameter here. *)
Definition returns_population (noise : list Q) (signal : Q) : py (list Q) :=
  do t <- np_add a_samples (map (fun bi => bi * signal) b_samples);
  np_add t noise.

(** [signals = np.linspace(X.min(), X.max(), 50)] *)
Definition signals : py (list Q) :=
  do lo <- np_min X;
  do hi <- np_max X;
  Ok (np_linspace lo hi 50).

(** [exp_value = lambda pred:
      vectorised_stock_loss(returns_population(signal), pred).mean()] *)
Definition exp_value (noise : list Q) (signal : Q) (pred : Q) : py scalar :=
  do population <- returns_population noise signal;
  do loss <- vectorised_stock_loss population pred None;
  Ok (np_mean loss).

(** The loop [for i, signal in enumerate(signals): ...], from index [i] on,
    with the array [opt_predictions] as its state. *)
Fixpoint minimization_loop (noise : list Q) (i : nat) (rest : list Q)
  (opt_predictions : list Q) : py (list Q) :=
  match rest with
  | [] => Ok opt_predictions
  | signal :: rest' =>
      do r <- fmin (exp_value noise signal) 0;
      do opt_predictions' <- setitem_int opt_predictions i r;
      minimization_loop noise (S i) rest' opt_predictions'
  end.

(** [opt_predictions] after the loop, for a given grid. *)
Definition opt_predictions (noise : list Q) (sigs : list Q) : py (list Q) :=
  minimization_loop noise 0 sigs (np_zeros_like sigs).


End Notebook.

(** ** A concrete random source and minimiser, to run the model *)

(** A random source that replays a list of standard normal variates [z] and
    scales them, [mu + sd * z]; it yields [mu] once the list is used up. *)
Definition replay_normal (mu sd : Q) (g : list Q) : Q * list Q :=
  match g with
  | [] => (mu, [])
  | z :: g' => (mu + sd * z, g')
  end.

(** A minimiser that evaluates the objective at the starting point and
    returns that point. *)
Definition fmin_start (func : Q -> py scalar) (x0 : Q) : py Q :=
  do _ <- func x0;
  Ok x0.

(** A trace for running the model: [burn_in] draws that the slice discards,
    then two draws that it keeps. *)
Definition example_trace : list point :=
  replicate burn_in {| pt_a := 0; pt_b := 0; pt_sigma := 1 |}
    ++ [{| pt_a := 1; pt_b := 2; pt_sigma := 1 |};
        {| pt_a := 3; pt_b := -1; pt_sigma := 2 |}].

(** * Properties *)

(** ** Comparison, sign and absolute value *)

Lemma Qltb_true (x y : Q) : Qltb x y = true <-> x < y.
Proof.
  unfold Qltb. destruct (Qlt_le_dec x y) as [Hlt | Hle]; split; intro H.
  - exact Hlt.
  - reflexivity.
  - discriminate H.
  - exfalso. apply (Qlt_not_le _ _ H Hle).
Qed.

Lemma Qltb_false (x y : Q) : Qltb x y = false <-> ~ x < y.
Proof.
  rewrite <- Qltb_true. destruct (Qltb x y); split; intro H.
  - discriminate H.
  - exfalso. apply H. reflexivity.
  - intro H'. discriminate H'.
  - reflexivity.
Qed.

Lemma np_sign_pos (x : Q) : 0 < x -> np_sign x = 1.
Proof.
  intro H. unfold np_sign.
  assert (H1 : Qltb x 0 = false) by (apply Qltb_false; lra).
  assert (H2 : Qltb 0 x = true) by (apply Qltb_true; exact H).
  rewrite H1, H2. reflexivity.
Qed.

Lemma np_sign_neg (x : Q) : x < 0 -> np_sign x = -1.
Proof.
  intro H. unfold np_sign.
  assert (H1 : Qltb x 0 = true) by (apply Qltb_true; exact H).
  rewrite H1. reflexivity.
Qed.

Lemma np_sign_zero (x : Q) : x == 0 -> np_sign x = 0.
Proof.
  intro H. unfold np_sign.
  assert (H1 : Qltb x 0 = false) by (apply Qltb_false; lra).
  assert (H2 : Qltb 0 x = false) by (apply Qltb_false; lra).
  rewrite H1, H2. reflexivity.
Qed.

Lemma Qabs_pos_eq (x : Q) : 0 <= x -> Qabs x == x.
Proof. apply Qabs_pos. Qed.

Lemma Qabs_neg_eq (x : Q) : x <= 0 -> Qabs x == - x.
Proof. apply Qabs_neg. Qed.

(** The sign of a product that is negative: the factors have strictly
    opposite signs. *)
Lemma opposite_signs (t p : Q) :
  t * p < 0 -> (0 < t /\ p < 0) \/ (t < 0 /\ 0 < p).
Proof.
  intro H.
  destruct (Qlt_le_dec 0 t) as [Ht | Ht];
    destruct (Qlt_le_dec 0 p) as [Hp | Hp].
  - exfalso. nra.
  - left. split; [exact Ht |]. destruct (Qeq_dec p 0) as [E | E].
    + exfalso. rewrite E in H. lra.
    + lra.
  - right. split; [| exact Hp]. destruct (Qeq_dec t 0) as [E | E].
    + exfalso. rewrite E in H. lra.
    + lra.
  - exfalso. nra.
Qed.

(** ** The two branches of [stock_loss] *)

Lemma stock_loss_opposite (t p alpha : Q) :
  t * p < 0 ->
  stock_loss t p (Some alpha)
  = alpha * p ^ 2 - np_sign t * p + Qabs t.
Proof.
  intro H. unfold stock_loss. simpl default.
  apply Qltb_true in H. rewrite H. reflexivity.
Qed.

Lemma stock_loss_same (t p : Q) (alpha : option Q) :
  ~ t * p < 0 -> stock_loss t p alpha = Qabs (t - p).
Proof.
  intro H. unfold stock_loss.
  apply Qltb_false in H. rewrite H. reflexivity.
Qed.

(** In the quadratic branch the loss is [alpha*p^2 + |p| + |t|]. *)
Lemma stock_loss_opposite_abs (t p alpha : Q) :
  t * p < 0 ->
  stock_loss t p (Some alpha) == alpha * p ^ 2 + Qabs p + Qabs t.
Proof.
  intro H. rewrite (stock_loss_opposite t p alpha H).
  destruct (opposite_signs t p H) as [[Ht Hp] | [Ht Hp]].
  - rewrite (np_sign_pos t Ht).
    rewrite (Qabs_neg_eq p) by lra. ring.
  - rewrite (np_sign_neg t Ht).
    rewrite (Qabs_pos_eq p) by lra. ring.
Qed.

Lemma stock_loss_nonneg (t p alpha : Q) :
  0 <= alpha -> 0 <= stock_loss t p (Some alpha).
Proof.
  intro Ha. destruct (Qlt_le_dec (t * p) 0) as [H | H].
  - rewrite (stock_loss_opposite_abs t p alpha H).
    pose proof (Qabs_nonneg p). pose proof (Qabs_nonneg t). nra.
  - rewrite stock_loss_same by lra. apply Qabs_nonneg.
Qed.

Lemma stock_loss_opposite_pos (t p alpha : Q) :
  0 <= alpha -> t * p < 0 -> 0 < stock_loss t p (Some alpha).
Proof.
  intros Ha H. rewrite (stock_loss_opposite_abs t p alpha H).
  pose proof (Qabs_nonneg p) as Hp.
  assert (Ht : 0 < Qabs t).
  { destruct (opposite_signs t p H) as [[Ht _] | [Ht _]].
    - rewrite Qabs_pos_eq; lra.
    - rewrite Qabs_neg_eq; lra. }
  nra.
Qed.

(** ** Boolean masks *)

Section Masks.

Variable f : Q -> bool.

Lemma getitem_mask_map (a : list Q) :
  getitem_mask a (map f a) = Ok (mask_select a (map f a)).
Proof.
  unfold getitem_mask. rewrite length_map, Nat.eqb_refl. reflexivity.
Qed.

Lemma count_true_select (a : list Q) :
  count_true (map f a) = length (mask_select a (map f a)).
Proof.
  unfold count_true. induction a as [| x a IH]; [reflexivity |].
  cbn [map mask_select]. rewrite filter_cons.
  destruct (f x) eqn:E.
  - rewrite decide_True by reflexivity. cbn [length]. rewrite IH. reflexivity.
  - rewrite decide_False by discriminate. exact IH.
Qed.

(** Writing [g] of the selected entries back under the same mask. *)
Lemma mask_put_select (g : Q -> Q) (a : list Q) :
  forall dst : list Q,
    length dst = length a ->
    mask_put dst (map f a) (map g (mask_select a (map f a)))
    = zip_with (fun t d => if f t then g t else d) a dst.
Proof.
  induction a as [| x a IH]; intros dst Hlen.
  - destruct dst; [reflexivity | discriminate Hlen].
  - destruct dst as [| d dst]; [discriminate Hlen |].
    injection Hlen as Hlen.
    cbn [map mask_select mask_put zip_with].
    destruct (f x).
    + cbn [map]. rewrite (IH dst Hlen). reflexivity.
    + rewrite (IH dst Hlen). reflexivity.
Qed.

Lemma setitem_mask_select (g : Q -> Q) (a dst : list Q) :
  length dst = length a ->
  setitem_mask dst (map f a) (map g (mask_select a (map f a)))
  = Ok (zip_with (fun t d => if f t then g t else d) a dst).
Proof.
  intro Hlen. unfold setitem_mask.
  rewrite !length_map, Hlen, Nat.eqb_refl. cbn [negb].
  rewrite count_true_select, Nat.eqb_refl.
  rewrite (mask_put_select g a dst Hlen). reflexivity.
Qed.

End Masks.

Lemma zip_with_map_same {A B C D : Type}
  (h : B -> C -> D) (g1 : A -> B) (g2 : A -> C) (l : list A) :
  zip_with h (map g1 l) (map g2 l) = map (fun x => h (g1 x) (g2 x)) l.
Proof.
  induction l as [| x l IH]; [reflexivity |].
  cbn [map zip_with]. rewrite IH. reflexivity.
Qed.

Lemma broadcast2_same_length (h : Q -> Q -> Q) (x y : list Q) :
  length x = length y -> broadcast2 h x y = Ok (zip_with h x y).
Proof.
  intro H. unfold broadcast2. rewrite H, Nat.eqb_refl. reflexivity.
Qed.

(** Two complementary masked writes over a fresh array give a map. *)
Lemma zip_with_complementary (f : Q -> bool) (g h : Q -> Q) (a : list Q) :
  forall dst : list Q,
    length dst = length a ->
    zip_with (fun t d => if negb (f t) then h t else d) a
      (zip_with (fun t d => if f t then g t else d) a dst)
    = map (fun t => if f t then g t else h t) a.
Proof.
  induction a as [| x a IH]; intros dst Hlen.
  - reflexivity.
  - destruct dst as [| d dst]; [discriminate Hlen |].
    injection Hlen as Hlen.
    cbn [zip_with map]. rewrite (IH dst Hlen).
    destruct (f x); reflexivity.
Qed.

(** ** The vectorised loss is the scalar loss, element by element *)

Lemma vectorised_stock_loss_map (true_return : list Q) (prediction alpha : Q) :
  vectorised_stock_loss true_return prediction (Some alpha)
  = Ok (map (fun t => stock_loss t prediction (Some alpha)) true_return).
Proof.
  unfold vectorised_stock_loss. simpl default.
  set (f := fun t : Q => Qltb (t * prediction) 0).
  rewrite (getitem_mask_map f). cbn [bind].
  rewrite !map_map.
  unfold np_add.
  rewrite broadcast2_same_length by (rewrite !length_map; reflexivity).
  cbn [bind]. rewrite zip_with_map_same.
  rewrite (setitem_mask_select f)
    by (unfold np_zeros_like; apply length_replicate).
  cbn [bind].
  set (nf := fun x : Q => negb (f x)).
  rewrite (getitem_mask_map nf). cbn [bind].
  rewrite map_map.
  rewrite (setitem_mask_select nf (fun t => np_abs (t - prediction)))
    by (unfold np_zeros_like; rewrite length_zip_with, length_replicate; lia).
  cbn [bind]. unfold nf.
  rewrite zip_with_complementary
    by (unfold np_zeros_like; apply length_replicate).
  reflexivity.
Qed.

Lemma vectorised_stock_loss_default (true_return : list Q) (prediction : Q) :
  vectorised_stock_loss true_return prediction None
  = vectorised_stock_loss true_return prediction
      (Some vectorised_stock_loss_alpha).
Proof. reflexivity. Qed.

(** C1. For every true value, prediction and [alpha > 0], the scalar loss is
    [alpha*prediction^2 - sign(true_value)*prediction + |true_value|] when
    [true_value*prediction < 0] and [|true_value - prediction|] otherwise,
    where [sign] is 1 on positive, -1 on negative and 0 on zero values.  When
    the true value or the prediction is zero the product is zero, the strict
    test fails and the loss is [|true_value - prediction|]; in particular
    [loss(0, prediction) = |prediction|]. *)
Theorem stock_loss_branches (true_value prediction alpha : Q) :
  0 < alpha ->
  (true_value * prediction < 0 ->
   stock_loss true_value prediction (Some alpha)
   = alpha * prediction ^ 2 - np_sign true_value * prediction
     + Qabs true_value)
  /\ (~ true_value * prediction < 0 ->
      stock_loss true_value prediction (Some alpha)
      = Qabs (true_value - prediction))
  /\ (true_value == 0 \/ prediction == 0 ->
      true_value * prediction == 0
      /\ Qltb (true_value * prediction) 0 = false
      /\ stock_loss true_value prediction (Some alpha)
         = Qabs (true_value - prediction))
  /\ stock_loss 0 prediction (Some alpha) == Qabs prediction
  /\ ((0 < true_value -> np_sign true_value = 1)
      /\ (true_value < 0 -> np_sign true_value = -1)
      /\ (true_value == 0 -> np_sign true_value = 0)).
Proof.
  intros _. repeat split.
  - apply stock_loss_opposite.
  - apply stock_loss_same.
  - destruct H as [E | E]; rewrite E; ring.
  - apply Qltb_false. destruct H as [E | E]; rewrite E; lra.
  - apply stock_loss_same. destruct H as [E | E]; rewrite E; lra.
  - rewrite stock_loss_same by lra.
    assert (E : 0 - prediction == - prediction) by ring.
    rewrite E. apply Qabs_opp.
  - apply np_sign_pos.
  - apply np_sign_neg.
  - apply np_sign_zero.
Qed.

Lemma stock_loss_branches_witness :
  0 < 100
  /\ stock_loss 1 (-1 # 10) (Some 100)
     = 100 * (-1 # 10) ^ 2 - np_sign 1 * (-1 # 10) + Qabs 1.
Proof.
  split; [reflexivity |].
  apply (stock_loss_branches 1 (-1 # 10) 100); reflexivity.
Defined.

(** C3. For every finite sequence of true values and every scalar
    prediction, the vectorised loss returns, without raising, a sequence of
    the same length whose i-th element is the scalar loss of the i-th true
    value and the prediction with the same alpha (its own default, 500, when
    alpha is left out); on the empty sequence it returns the empty
    sequence. *)
Theorem vectorised_stock_loss_elementwise
  (true_values : list Q) (prediction alpha : Q) :
  let losses :=
    map (fun t => stock_loss t prediction (Some alpha)) true_values in
  vectorised_stock_loss true_values prediction (Some alpha) = Ok losses
  /\ length losses = length true_values
  /\ (forall (i : nat) (t : Q),
        true_values !! i = Some t ->
        losses !! i = Some (stock_loss t prediction (Some alpha)))
  /\ vectorised_stock_loss [] prediction (Some alpha) = Ok []
  /\ vectorised_stock_loss true_values prediction None
     = Ok (map (fun t => stock_loss t prediction (Some 500)) true_values)
  /\ vectorised_stock_loss [] prediction None = Ok [].
Proof.
  cbv zeta. repeat split.
  - apply vectorised_stock_loss_map.
  - apply length_map.
  - intros i t Hi. rewrite list_lookup_fmap, Hi. reflexivity.
  - rewrite vectorised_stock_loss_default. apply vectorised_stock_loss_map.
Qed.

(** The claim C4 as stated, that some opposite-sign pair and some
    [alpha > 0] give a strictly negative loss, is false. *)
Lemma negative_loss_impossible :
  ~ (exists true_value prediction alpha : Q,
        0 < alpha
        /\ true_value * prediction < 0
        /\ stock_loss true_value prediction (Some alpha) < 0).
Proof.
  intros (t & p & alpha & Ha & _ & Hneg).
  assert (H : 0 <= stock_loss t p (Some alpha))
    by (apply stock_loss_nonneg; lra).
  lra.
Qed.

(** C4 (amended). The loss is never negative: for every true value,
    prediction and [alpha > 0] the loss is at least 0, and on an
    opposite-sign pair it equals [alpha*prediction^2 + |prediction| +
    |true_value|], which is strictly positive.  This agrees with the return
    type of the contract. *)
Theorem stock_loss_never_negative (true_value prediction alpha : Q) :
  0 < alpha ->
  0 <= stock_loss true_value prediction (Some alpha)
  /\ (true_value * prediction < 0 ->
      stock_loss true_value prediction (Some alpha)
      == alpha * prediction ^ 2 + Qabs prediction + Qabs true_value
      /\ 0 < stock_loss true_value prediction (Some alpha)).
Proof.
  intro Ha. split.
  - apply stock_loss_nonneg. lra.
  - intro H. split.
    + apply stock_loss_opposite_abs. exact H.
    + apply stock_loss_opposite_pos; [lra | exact H].
Qed.

Lemma stock_loss_never_negative_witness :
  0 < 100 /\ 0 <= stock_loss 1 (-1 # 1000) (Some 100).
Proof.
  split; [reflexivity |].
  apply (stock_loss_never_negative 1 (-1 # 1000) 100). reflexivity.
Defined.

(** C10. The scalar loss defaults to [alpha = 100] and the vectorised loss
    to [alpha = 500].  Called with their defaults on the same prediction,
    the vectorised loss of an entry and the scalar loss of that entry differ
    by exactly [400*prediction^2], and so are different, on every
    opposite-sign pair; they agree exactly on the pairs that are not of
    opposite sign. *)
Theorem default_alpha_mismatch (true_return : list Q) (prediction : Q) :
  (forall t : Q,
      stock_loss t prediction None = stock_loss t prediction (Some 100))
  /\ vectorised_stock_loss true_return prediction None
     = vectorised_stock_loss true_return prediction (Some 500)
  /\ exists losses : list Q,
      vectorised_stock_loss true_return prediction None = Ok losses
      /\ forall (i : nat) (t : Q),
          true_return !! i = Some t ->
          exists v : Q,
            losses !! i = Some v
            /\ (t * prediction < 0 ->
                v - stock_loss t prediction None == 400 * prediction ^ 2
                /\ ~ v == stock_loss t prediction None)
            /\ (v == stock_loss t prediction None <-> ~ t * prediction < 0).
Proof.
  split; [reflexivity |]. split; [reflexivity |].
  exists (map (fun t => stock_loss t prediction (Some 500)) true_return).
  split.
  - rewrite vectorised_stock_loss_default. apply vectorised_stock_loss_map.
  - intros i t Hi. exists (stock_loss t prediction (Some 500)).
    split; [rewrite list_lookup_fmap, Hi; reflexivity |].
    change (stock_loss t prediction None)
      with (stock_loss t prediction (Some 100)).
    assert (Hdiff : t * prediction < 0 ->
                    stock_loss t prediction (Some 500)
                    - stock_loss t prediction (Some 100)
                    == 400 * prediction ^ 2).
    { intro H. rewrite !stock_loss_opposite by exact H. ring. }
    assert (Hne : t * prediction < 0 ->
                  ~ stock_loss t prediction (Some 500)
                    == stock_loss t prediction (Some 100)).
    { intros H E. specialize (Hdiff H).
      destruct (opposite_signs t prediction H) as [[_ Hp] | [_ Hp]]; nra. }
    split; [| split].
    + intro H. split; [apply Hdiff | apply Hne]; exact H.
    + intros E H. exact (Hne H E).
    + intro H. rewrite !stock_loss_same by exact H. reflexivity.
Qed.

(** ** Running the error monad *)

Lemma mapM_py_Ok {A B : Type} (F : A -> py B) (l : list A) (rs : list B) :
  mapM_py F l = Ok rs ->
  length rs = length l
  /\ forall (i : nat) (x : A),
      l !! i = Some x -> exists r : B, F x = Ok r /\ rs !! i = Some r.
Proof.
  revert rs. induction l as [| x l IH]; intros rs H.
  - injection H as <-. split; [reflexivity |]. intros i y Hi. discriminate Hi.
  - cbn [mapM_py] in H. destruct (F x) as [r | e] eqn:Er; [| discriminate H].
    cbn [bind] in H.
    destruct (mapM_py F l) as [rs' | e]; [| discriminate H].
    cbn [bind] in H. injection H as <-.
    destruct (IH rs' eq_refl) as [Hlen Hnth].
    split; [cbn [length]; rewrite Hlen; reflexivity |].
    intros [| i] y Hi.
    + injection Hi as <-. exists r. split; [exact Er | reflexivity].
    + apply (Hnth i y Hi).
Qed.

Lemma mapM_py_total {A B : Type} (F : A -> py B) (l : list A) :
  (forall x : A, In x l -> exists r : B, F x = Ok r) ->
  exists rs : list B, mapM_py F l = Ok rs.
Proof.
  induction l as [| x l IH]; intro H.
  - exists []. reflexivity.
  - destruct (H x (or_introl eq_refl)) as [r Er].
    destruct IH as [rs Ers].
    { intros y Hy. apply H. right. exact Hy. }
    exists (r :: rs). cbn [mapM_py]. rewrite Er. cbn [bind].
    rewrite Ers. reflexivity.
Qed.

(** ** The posterior-predictive population *)

Lemma population_zip (signal : Q) (burned : list point) :
  forall noise : list Q,
    zip_with Qplus
      (zip_with Qplus (map pt_a burned)
         (map (fun bi => bi * signal) (map pt_b burned)))
      noise
    = zip_with (fun pt n => pt_a pt + pt_b pt * signal + n) burned noise.
Proof.
  induction burned as [| pt burned IH]; intros [| n noise]; try reflexivity.
  cbn [map zip_with]. rewrite IH. reflexivity.
Qed.

Lemma returns_population_zip
  (trace : list point) (noise : list Q) (signal : Q) :
  length noise = length (burned_trace trace) ->
  returns_population trace noise signal
  = Ok (zip_with (fun pt n => pt_a pt + pt_b pt * signal + n)
          (burned_trace trace) noise).
Proof.
  intro Hlen. unfold returns_population, a_samples, b_samples, np_add.
  rewrite broadcast2_same_length by (rewrite !length_map; reflexivity).
  cbn [bind].
  rewrite broadcast2_same_length
    by (rewrite length_zip_with, !length_map; lia).
  rewrite population_zip. reflexivity.
Qed.

Lemma population_lookup (signal : Q) (burned : list point) (noise : list Q)
  (i : nat) (pt : point) (n : Q) :
  burned !! i = Some pt ->
  noise !! i = Some n ->
  zip_with (fun pt n => pt_a pt + pt_b pt * signal + n) burned noise !! i
  = Some (pt_a pt + pt_b pt * signal + n).
Proof.
  intros Hpt Hn. rewrite lookup_zip_with, Hpt. cbn. rewrite Hn. reflexivity.
Qed.

(** ** The noise draw *)

Section NoiseDraw.

Context {rng : Type}.
Variable normal_random : Q -> Q -> rng -> Q * rng.

Lemma random_each_length (mu : Q) (sd : list Q) :
  forall g : rng, length (fst (random_each normal_random mu sd g)) = length sd.
Proof.
  induction sd as [| s sd IH]; intro g; [reflexivity |].
  cbn [random_each]. destruct (normal_random mu s g) as [x g1].
  specialize (IH g1).
  destruct (random_each normal_random mu sd g1) as [xs g2].
  cbn [fst length] in *. rewrite IH. reflexivity.
Qed.


Lemma noise_length (trace : list point) (g : rng) :
  length (fst (noise_cell normal_random trace g))
  = length (burned_trace trace).
Proof.
  unfold noise_cell, dist_random, noise_generator, sigma_trace.
  cbn [dist_mu dist_sd]. rewrite random_each_length. apply length_map.
Qed.

End NoiseDraw.

(** ** The minimization loop *)

Section Loop.

Variable fmin : (Q -> py scalar) -> Q -> py Q.
Variable trace : list point.
Variable noise : list Q.

Local Abbreviation F :=
  (fun signal : Q => fmin (exp_value trace noise signal) 0).

(** Invariant of the loop: the entries before [i] are final, the entries
    from [i] on are still to be written. *)
Lemma minimization_loop_inv (rest : list Q) :
  forall (i : nat) (done todo : list Q),
    length done = i ->
    length todo = length rest ->
    minimization_loop fmin trace noise i rest (done ++ todo)
    = do rs <- mapM_py F rest; Ok (done ++ rs).
Proof.
  induction rest as [| signal rest IH]; intros i done todo Hi Hlen.
  - destruct todo; [reflexivity | discriminate Hlen].
  - destruct todo as [| t todo]; [discriminate Hlen |].
    injection Hlen as Hlen.
    cbn [minimization_loop mapM_py].
    destruct (fmin (exp_value trace noise signal) 0) as [r | e];
      [| reflexivity].
    cbn [bind]. unfold setitem_int.
    assert (Hlt : Nat.ltb i (length (done ++ t :: todo)) = true).
    { apply Nat.ltb_lt. rewrite length_app. cbn [length]. lia. }
    rewrite Hlt. cbn [bind].
    replace (<[i:=r]> (done ++ t :: todo)) with ((done ++ [r]) ++ todo).
    2:{ rewrite <- Hi, <- (Nat.add_0_r (length done)), insert_app_r.
        rewrite <- app_assoc. reflexivity. }
    rewrite (IH (S i) (done ++ [r]) todo)
      by (try rewrite length_app; cbn [length]; lia).
    destruct (mapM_py F rest) as [rs | e]; [| reflexivity].
    cbn [bind]. rewrite <- app_assoc. reflexivity.
Qed.

Lemma opt_predictions_mapM (sigs : list Q) :
  opt_predictions fmin trace noise sigs = mapM_py F sigs.
Proof.
  unfold opt_predictions.
  pose proof (minimization_loop_inv sigs 0 [] (np_zeros_like sigs) eq_refl)
    as H.
  cbn [app] in H. rewrite H
    by (unfold np_zeros_like; apply length_replicate).
  destruct (mapM_py F sigs); reflexivity.
Qed.

End Loop.

Lemma exp_value_mean (trace : list point) (noise : list Q) (signal r : Q) :
  exp_value trace noise signal r
  = do population <- returns_population trace noise signal;
    Ok (np_mean (map (fun R => stock_loss R r (Some 500)) population)).
Proof.
  unfold exp_value.
  destruct (returns_population trace noise signal) as [population | e];
    [| reflexivity].
  cbn [bind]. rewrite vectorised_stock_loss_default.
  rewrite vectorised_stock_loss_map. reflexivity.
Qed.

(** C7. For every signal value, and a noise vector with one entry per
    sample of the burned trace, the posterior-predictive population is
    computed without raising, has the length of the burned trace, and its
    i-th element is [a_i + b_i*signal + noise[i]]. *)
Theorem returns_population_spec
  (trace : list point) (noise : list Q) (signal : Q) :
  length noise = length (burned_trace trace) ->
  exists population : list Q,
    returns_population trace noise signal = Ok population
    /\ length population = length (burned_trace trace)
    /\ length population = num_samples trace
    /\ forall (i : nat) (pt : point) (n : Q),
        burned_trace trace !! i = Some pt ->
        noise !! i = Some n ->
        population !! i = Some (pt_a pt + pt_b pt * signal + n).
Proof.
  intro Hlen. eexists. split; [apply returns_population_zip; exact Hlen |].
  repeat split.
  - rewrite length_zip_with. lia.
  - unfold num_samples, a_samples. rewrite length_zip_with, length_map. lia.
  - intros i pt n. apply population_lookup.
Qed.

Lemma burned_example_trace :
  burned_trace example_trace
  = [{| pt_a := 1; pt_b := 2; pt_sigma := 1 |};
     {| pt_a := 3; pt_b := -1; pt_sigma := 2 |}].
Proof.
  unfold burned_trace, example_trace.
  apply drop_app_length'. symmetry. apply length_replicate.
Qed.

Lemma returns_population_spec_witness :
  exists population : list Q,
    returns_population example_trace [1 # 2; -1 # 4] 5 = Ok population.
Proof.
  assert (Hlen : length [1 # 2; -1 # 4] = length (burned_trace example_trace))
    by (rewrite burned_example_trace; reflexivity).
  destruct (returns_population_spec example_trace [1 # 2; -1 # 4] 5 Hlen)
    as (population & H & _).
  exists population. exact H.
Defined.


(** C6. The objective of a signal is the mean, over that signal's
    population, of the scalar loss at the vectorised default [alpha = 500];
    the mean of a non-empty array is its sum over its length.  The loop runs
    the minimiser once per grid entry from the initial guess 0: its result is
    the sequence of the minimiser's results in grid order.  So whenever the
    loop returns, the prediction array has one entry per grid entry and
    entry [i] is the minimiser's result for [signals[i]]; and it returns
    whenever the minimiser returns for every grid entry. *)
Theorem opt_predictions_per_signal
  (fmin : (Q -> py scalar) -> Q -> py Q)
  (trace : list point) (noise sigs : list Q) :
  (forall signal r : Q,
      exp_value trace noise signal r
      = do population <- returns_population trace noise signal;
        Ok (np_mean (map (fun R => stock_loss R r (Some 500)) population)))
  /\ (forall (x : Q) (l : list Q),
        np_mean (x :: l)
        = Finite (Qsum (x :: l) / inject_Z (Z.of_nat (length (x :: l)))))
  /\ opt_predictions fmin trace noise sigs
     = mapM_py (fun signal => fmin (exp_value trace noise signal) 0) sigs
  /\ (forall preds : list Q,
        opt_predictions fmin trace noise sigs = Ok preds ->
        length preds = length sigs
        /\ forall (i : nat) (signal : Q),
            sigs !! i = Some signal ->
            exists r : Q,
              fmin (exp_value trace noise signal) 0 = Ok r
              /\ preds !! i = Some r)
  /\ ((forall signal : Q,
          In signal sigs ->
          exists r : Q, fmin (exp_value trace noise signal) 0 = Ok r) ->
      exists preds : list Q,
        opt_predictions fmin trace noise sigs = Ok preds).
Proof.
  split; [intros; apply exp_value_mean |].
  split; [reflexivity |].
  split; [apply opt_predictions_mapM |].
  split.
  - intros preds H. rewrite opt_predictions_mapM in H.
    apply (mapM_py_Ok _ _ _ H).
  - intro H. rewrite opt_predictions_mapM. apply mapM_py_total. exact H.
Qed.

(** C5 as stated fails.  With an empty trace the population of a signal is
    the empty array and the objective evaluates to [nan] instead of
    raising; run with a minimiser that returns its starting point, the loop
    returns the array [[0; 0]] for a grid of two signals and raises
    nothing. *)
Lemma empty_population_no_error :
  returns_population [] [] 1 = Ok []
  /\ exp_value [] [] 1 0 = Ok NaN
  /\ opt_predictions fmin_start [] [] [1; 2] = Ok [0; 0]
  /\ ~ (exists e : exn, opt_predictions fmin_start [] [] [1; 2] = Raise e).
Proof.
  repeat split. intros [e H]. discriminate H.
Qed.

(** C5 (amended). When the burned trace, and with it the outcome population,
    is empty, the code makes no precondition check: the noise cell draws
    nothing, the population of every signal is the empty array, the
    vectorised loss of it is the empty array, and the objective is [nan] at
    every prediction, raising nothing.  The loop then stores whatever the
    minimiser returns for that objective: it returns a prediction array with
    one entry per grid entry whenever the minimiser returns. *)
Theorem empty_population_not_rejected {rng : Type}
  (normal_random : Q -> Q -> rng -> Q * rng)
  (fmin : (Q -> py scalar) -> Q -> py Q)
  (trace : list point) (sigs : list Q) (g : rng) :
  burned_trace trace = [] ->
  fst (noise_cell normal_random trace g) = []
  /\ (forall signal : Q, returns_population trace [] signal = Ok [])
  /\ (forall pred : Q, vectorised_stock_loss [] pred None = Ok [])
  /\ np_mean [] = NaN
  /\ (forall signal pred : Q, exp_value trace [] signal pred = Ok NaN)
  /\ opt_predictions fmin trace [] sigs
     = mapM_py (fun signal => fmin (exp_value trace [] signal) 0) sigs
  /\ ((forall signal : Q,
          In signal sigs ->
          exists r : Q, fmin (exp_value trace [] signal) 0 = Ok r) ->
      exists preds : list Q,
        opt_predictions fmin trace [] sigs = Ok preds
        /\ length preds = length sigs).
Proof.
  intro Hempty.
  assert (Hpop : forall signal : Q, returns_population trace [] signal = Ok []).
  { intro signal.
    rewrite returns_population_zip by (rewrite Hempty; reflexivity).
    rewrite Hempty. reflexivity. }
  split.
  { apply length_zero_iff_nil. rewrite noise_length, Hempty. reflexivity. }
  split; [exact Hpop |].
  split; [reflexivity |]. split; [reflexivity |].
  split.
  { intros signal pred. rewrite exp_value_mean, Hpop. reflexivity. }
  split; [apply opt_predictions_mapM |].
  intro H. rewrite opt_predictions_mapM.
  destruct (mapM_py_total _ sigs H) as [preds Hp].
  exists preds. split; [exact Hp |]. apply (mapM_py_Ok _ _ _ Hp).
Qed.

Lemma empty_population_not_rejected_witness :
  burned_trace [] = []
  /\ fst (noise_cell replay_normal [] [1 # 2]) = []
  /\ opt_predictions fmin_start [] [] [1; 2]
     = mapM_py (fun signal => fmin_start (exp_value [] [] signal) 0) [1; 2].
Proof.
  split; [reflexivity |].
  destruct (empty_population_not_rejected replay_normal fmin_start
              [] [1; 2] [1 # 2] eq_refl)
    as (Hnoise & _ & _ & _ & _ & Hloop & _).
  split; [exact Hnoise | exact Hloop].
Defined.

(** C8. Burn-in trimming discards a prefix of fixed size, 20000: the trace
    is the discarded prefix followed by the burned trace, entry [i] of the
    burned trace is entry [20000 + i] of the trace, and the burned trace has
    the length of the trace minus 20000.  In the reference run the trace has
    100000 draws: the prefix is its first 20000 draws, a fifth of them, and
    80000 remain. *)
Theorem burn_in_discards_prefix (trace : list point) :
  Z.of_nat burn_in = 20000%Z
  /\ Z.of_nat draws = 100000%Z
  /\ (5 * Z.of_nat burn_in = Z.of_nat draws)%Z
  /\ trace = take burn_in trace ++ burned_trace trace
  /\ (forall i : nat, burned_trace trace !! i = trace !! (burn_in + i)%nat)
  /\ length (burned_trace trace) = (length trace - burn_in)%nat
  /\ (length trace = draws ->
      length (take burn_in trace) = burn_in
      /\ Z.of_nat (length (burned_trace trace)) = 80000%Z
      /\ length (burned_trace trace) = (draws - burn_in)%nat).
Proof.
  assert (Hb : Z.of_nat burn_in = 20000%Z)
    by (unfold burn_in; rewrite Z2Nat.id; lia).
  assert (Hd : Z.of_nat draws = 100000%Z)
    by (unfold draws; rewrite Z2Nat.id; lia).
  split; [exact Hb |]. split; [exact Hd |]. split; [lia |].
  split; [unfold burned_trace; symmetry; apply take_drop |].
  split; [intro i; unfold burned_trace; apply lookup_drop |].
  split; [unfold burned_trace; apply length_drop |].
  intro Hlen. unfold burned_trace.
  rewrite length_take, length_drop, Hlen. repeat split; lia.
Qed.

Lemma burn_in_discards_prefix_witness :
  Z.of_nat
    (length
       (burned_trace
          (replicate draws {| pt_a := 0; pt_b := 0; pt_sigma := 1 |})))
  = 80000%Z.
Proof.
  apply (burn_in_discards_prefix
           (replicate draws {| pt_a := 0; pt_b := 0; pt_sigma := 1 |})).
  apply length_replicate.
Defined.

(** ** Minimum and maximum of an array *)

Lemma Qmin_cases (x y : Q) :
  (Qmin x y = x /\ x <= y) \/ (Qmin x y = y /\ y <= x).
Proof.
  unfold Qmin, GenericMinMax.gmin. destruct (x ?= y) eqn:E.
  - left. split; [reflexivity |]. apply Qeq_alt in E. lra.
  - left. split; [reflexivity |]. apply Qlt_alt in E. lra.
  - right. split; [reflexivity |].
    pose proof (proj2 (Qgt_alt x y) E). lra.
Qed.

Lemma Qmax_cases (x y : Q) :
  (Qmax x y = x /\ y <= x) \/ (Qmax x y = y /\ x <= y).
Proof.
  unfold Qmax, GenericMinMax.gmax. destruct (x ?= y) eqn:E.
  - left. split; [reflexivity |]. apply Qeq_alt in E. lra.
  - right. split; [reflexivity |]. apply Qlt_alt in E. lra.
  - left. split; [reflexivity |].
    pose proof (proj2 (Qgt_alt x y) E). lra.
Qed.

(** The left fold of [Qmin] from [x] over [l] is an entry of [x :: l] below
    all of them. *)
Lemma fold_left_Qmin (l : list Q) :
  forall x : Q,
    In (fold_left Qmin l x) (x :: l)
    /\ forall y : Q, In y (x :: l) -> fold_left Qmin l x <= y.
Proof.
  induction l as [| z l IH]; intro x.
  - cbn [fold_left]. split; [left; reflexivity |].
    intros y [<- | []]. lra.
  - cbn [fold_left]. destruct (IH (Qmin x z)) as [Hin Hle].
    split.
    + destruct Hin as [Hin | Hin].
      * rewrite <- Hin.
        destruct (Qmin_cases x z) as [[E _] | [E _]]; rewrite E.
        -- left. reflexivity.
        -- right. left. reflexivity.
      * right. right. exact Hin.
    + intros y Hy.
      assert (Hm : fold_left Qmin l (Qmin x z) <= Qmin x z)
        by (apply Hle; left; reflexivity).
      destruct Hy as [<- | [<- | Hy]].
      * pose proof (Q.le_min_l x z). lra.
      * pose proof (Q.le_min_r x z). lra.
      * apply Hle. right. exact Hy.
Qed.

Lemma fold_left_Qmax (l : list Q) :
  forall x : Q,
    In (fold_left Qmax l x) (x :: l)
    /\ forall y : Q, In y (x :: l) -> y <= fold_left Qmax l x.
Proof.
  induction l as [| z l IH]; intro x.
  - cbn [fold_left]. split; [left; reflexivity |].
    intros y [<- | []]. lra.
  - cbn [fold_left]. destruct (IH (Qmax x z)) as [Hin Hle].
    split.
    + destruct Hin as [Hin | Hin].
      * rewrite <- Hin.
        destruct (Qmax_cases x z) as [[E _] | [E _]]; rewrite E.
        -- left. reflexivity.
        -- right. left. reflexivity.
      * right. right. exact Hin.
    + intros y Hy.
      assert (Hm : Qmax x z <= fold_left Qmax l (Qmax x z))
        by (apply Hle; left; reflexivity).
      destruct Hy as [<- | [<- | Hy]].
      * pose proof (Q.le_max_l x z). lra.
      * pose proof (Q.le_max_r x z). lra.
      * apply Hle. right. exact Hy.
Qed.

Lemma np_min_spec (a : list Q) :
  a <> [] ->
  exists lo : Q,
    np_min a = Ok lo /\ In lo a /\ forall x : Q, In x a -> lo <= x.
Proof.
  destruct a as [| x a]; intro H; [contradiction |].
  exists (fold_left Qmin a x). split; [reflexivity |].
  apply fold_left_Qmin.
Qed.

Lemma np_max_spec (a : list Q) :
  a <> [] ->
  exists hi : Q,
    np_max a = Ok hi /\ In hi a /\ forall x : Q, In x a -> x <= hi.
Proof.
  destruct a as [| x a]; intro H; [contradiction |].
  exists (fold_left Qmax a x). split; [reflexivity |].
  apply fold_left_Qmax.
Qed.

(** ** The evenly spaced grid *)

Lemma inject_nat_nonneg (n : nat) : 0 <= inject_Z (Z.of_nat n).
Proof.
  change 0 with (inject_Z 0). rewrite <- Zle_Qle. lia.
Qed.

Lemma inject_nat_succ (n : nat) :
  inject_Z (Z.of_nat (S n)) == inject_Z (Z.of_nat n) + 1.
Proof.
  rewrite Nat2Z.inj_succ. unfold Z.succ. rewrite inject_Z_plus. reflexivity.
Qed.

Section Linspace.

Variables start stop : Q.
Variable n : nat.

(** The grid has [S (S n)] points, so [S n] steps. *)
Local Abbreviation step := ((stop - start) / inject_Z (Z.of_nat (S n))).
Local Abbreviation grid := (np_linspace start stop (S (S n))).

Lemma np_linspace_unfold :
  grid
  = map (fun i => inject_Z (Z.of_nat i) * step + start) (seq 0 (S n))
      ++ [stop].
Proof. reflexivity. Qed.

Lemma np_linspace_length : length grid = S (S n).
Proof.
  rewrite np_linspace_unfold, length_app, length_map, length_seq.
  cbn [length]. lia.
Qed.

Lemma np_linspace_lookup_lt (i : nat) :
  (i < S n)%nat ->
  grid !! i = Some (inject_Z (Z.of_nat i) * step + start).
Proof.
  intro Hi. rewrite np_linspace_unfold.
  rewrite lookup_app_l by (rewrite length_map, length_seq; exact Hi).
  rewrite list_lookup_fmap, lookup_seq_lt by exact Hi. reflexivity.
Qed.

Lemma np_linspace_lookup_last : grid !! (S n) = Some stop.
Proof.
  rewrite np_linspace_unfold. apply list_lookup_middle.
  rewrite length_map, length_seq. reflexivity.
Qed.

Lemma np_linspace_lookup_Some (i : nat) (x : Q) :
  grid !! i = Some x -> (i <= S n)%nat.
Proof.
  intro H. apply lookup_lt_Some in H. rewrite np_linspace_length in H. lia.
Qed.

Lemma step_times_steps : step * inject_Z (Z.of_nat (S n)) == stop - start.
Proof.
  field. rewrite inject_nat_succ.
  pose proof (inject_nat_nonneg n). lra.
Qed.

Lemma np_linspace_first : exists x : Q, grid !! 0%nat = Some x /\ x == start.
Proof.
  eexists. split; [apply np_linspace_lookup_lt; lia |].
  cbn [Z.of_nat]. ring.
Qed.

(** Consecutive points are one step apart. *)
Lemma np_linspace_even (i : nat) (x y : Q) :
  grid !! i = Some x -> grid !! (S i) = Some y -> y - x == step.
Proof.
  intros Hx Hy. pose proof (np_linspace_lookup_Some _ _ Hy) as Hi.
  rewrite np_linspace_lookup_lt in Hx by lia. injection Hx as <-.
  destruct (Nat.eq_dec i n) as [-> | Hne].
  - rewrite np_linspace_lookup_last in Hy. injection Hy as <-.
    pose proof step_times_steps as H.
    set (st := (stop - start) / inject_Z (Z.of_nat (S n))) in *.
    rewrite inject_nat_succ in H. lra.
  - rewrite np_linspace_lookup_lt in Hy by lia. injection Hy as <-.
    rewrite inject_nat_succ. ring.
Qed.

Lemma step_nonneg : start <= stop -> 0 <= step.
Proof.
  intro H. pose proof step_times_steps as E.
  set (st := (stop - start) / inject_Z (Z.of_nat (S n))) in *.
  rewrite inject_nat_succ in E. pose proof (inject_nat_nonneg n). nra.
Qed.

End Linspace.

(** C9. For a non-empty sequence of observed signals the grid is computed
    without raising and is a function of the data: 50 values, the first
    equal to the minimum observed signal, the last equal to the maximum,
    every two consecutive values [(max - min)/49] apart, in non-decreasing
    order. *)
Theorem signals_grid (X : list Q) :
  X <> [] ->
  exists (lo hi : Q) (grid : list Q),
    np_min X = Ok lo /\ In lo X /\ (forall x : Q, In x X -> lo <= x)
    /\ np_max X = Ok hi /\ In hi X /\ (forall x : Q, In x X -> x <= hi)
    /\ signals X = Ok grid
    /\ length grid = 50%nat
    /\ (exists first : Q, grid !! 0%nat = Some first /\ first == lo)
    /\ grid !! 49%nat = Some hi
    /\ (forall (i : nat) (x y : Q),
          grid !! i = Some x -> grid !! (S i) = Some y ->
          y - x == (hi - lo) / 49 /\ x <= y).
Proof.
  intro HX.
  destruct (np_min_spec X HX) as (lo & Hlo & Hlo_in & Hlo_le).
  destruct (np_max_spec X HX) as (hi & Hhi & Hhi_in & Hhi_le).
  exists lo, hi, (np_linspace lo hi 50).
  split; [exact Hlo |]. split; [exact Hlo_in |]. split; [exact Hlo_le |].
  split; [exact Hhi |]. split; [exact Hhi_in |]. split; [exact Hhi_le |].
  split; [unfold signals; rewrite Hlo, Hhi; reflexivity |].
  split; [apply (np_linspace_length lo hi 48) |].
  split; [apply (np_linspace_first lo hi 48) |].
  split; [apply (np_linspace_lookup_last lo hi 48) |].
  intros i x y Hx Hy.
  pose proof (np_linspace_even lo hi 48 i x y Hx Hy) as Hstep.
  pose proof (step_nonneg lo hi 48 (Hlo_le hi Hhi_in)) as Hpos.
  change (inject_Z (Z.of_nat 49)) with 49 in Hstep, Hpos.
  split; [exact Hstep | lra].
Qed.

Lemma signals_grid_witness :
  exists grid : list Q,
    signals [3 # 100; -6 # 100; 5 # 100] = Ok grid /\ length grid = 50%nat.
Proof.
  destruct (signals_grid [3 # 100; -6 # 100; 5 # 100])
    as (lo & hi & grid & _ & _ & _ & _ & _ & _ & Hs & Hlen & _).
  - discriminate.
  - exists grid. split; [exact Hs | exact Hlen].
Defined.


(** * Further properties of the loss function *)

Lemma Qabs_zero_inv (x : Q) : Qabs x == 0 -> x == 0.
Proof.
  apply (Qabs_case x (fun a => a == 0 -> x == 0)); intros; lra.
Qed.

Lemma Qabs_pos_lt (x : Q) : ~ x == 0 -> 0 < Qabs x.
Proof.
  intro H. apply (Qabs_case x); intro Hx.
  - destruct (Qeq_dec x 0) as [E | E]; [contradiction | lra].
  - destruct (Qeq_dec x 0) as [E | E]; [contradiction | lra].
Qed.

Lemma opposite_nonzero (t p : Q) : t * p < 0 -> ~ t == 0 /\ ~ p == 0.
Proof.
  intro H. split; intro E; rewrite E in H; lra.
Qed.

(** X1. With [alpha >= 0] the loss is zero exactly when the prediction
    equals the true return. *)
Theorem stock_loss_zero_iff (true_return prediction alpha : Q) :
  0 <= alpha ->
  stock_loss true_return prediction (Some alpha) == 0
  <-> true_return == prediction.
Proof.
  intro Ha. split.
  - intro H0.
    destruct (Qlt_le_dec (true_return * prediction) 0) as [H | H].
    + pose proof (stock_loss_opposite_pos _ _ _ Ha H). lra.
    + rewrite stock_loss_same in H0 by lra.
      apply Qabs_zero_inv in H0. lra.
  - intro E.
    assert (H : ~ true_return * prediction < 0) by (rewrite E; nra).
    rewrite stock_loss_same by exact H.
    assert (E0 : true_return - prediction == 0) by lra.
    rewrite E0. reflexivity.
Qed.

Lemma stock_loss_zero_iff_witness :
  0 <= 100 /\ stock_loss (5 # 100) (5 # 100) (Some 100) == 0.
Proof.
  split; [discriminate |].
  apply (stock_loss_zero_iff (5 # 100) (5 # 100) 100);
    [discriminate | reflexivity].
Defined.

(** X3. Predicting zero costs [|true_return|], and with [alpha >= 0] every
    prediction of the wrong sign costs strictly more than predicting zero. *)
Theorem wrong_sign_worse_than_zero (true_return prediction alpha : Q) :
  0 <= alpha ->
  true_return * prediction < 0 ->
  stock_loss true_return 0 (Some alpha) == Qabs true_return
  /\ stock_loss true_return 0 (Some alpha)
     < stock_loss true_return prediction (Some alpha).
Proof.
  intros Ha H.
  assert (E0 : stock_loss true_return 0 (Some alpha) == Qabs true_return).
  { rewrite stock_loss_same by lra.
    assert (E : true_return - 0 == true_return) by ring.
    rewrite E. reflexivity. }
  split; [exact E0 |].
  rewrite E0, (stock_loss_opposite_abs _ _ alpha H).
  destruct (opposite_nonzero _ _ H) as [_ Hp].
  pose proof (Qabs_pos_lt _ Hp). nra.
Qed.

Lemma wrong_sign_worse_than_zero_witness :
  stock_loss (5 # 100) 0 (Some 100)
  < stock_loss (5 # 100) (-1 # 100) (Some 100).
Proof.
  apply (wrong_sign_worse_than_zero (5 # 100) (-1 # 100) 100);
    [discriminate | reflexivity].
Defined.

(** * Further properties of the objective and of the population *)

Lemma Qsum_map_nonneg {A : Type} (f : A -> Q) (l : list A) :
  (forall x : A, In x l -> 0 <= f x) -> 0 <= Qsum (map f l).
Proof.
  induction l as [| x l IH]; intro H; cbn [map Qsum fold_right].
  - lra.
  - fold (Qsum (map f l)).
    pose proof (H x (or_introl eq_refl)).
    assert (0 <= Qsum (map f l))
      by (apply IH; intros y Hy; apply H; right; exact Hy).
    lra.
Qed.

Lemma Qsum_map_lt {A : Type} (f h : A -> Q) (l : list A) :
  l <> [] ->
  (forall x : A, In x l -> f x < h x) ->
  Qsum (map f l) < Qsum (map h l).
Proof.
  induction l as [| x l IH]; intros Hne H; [contradiction |].
  cbn [map Qsum fold_right]. fold (Qsum (map f l)) (Qsum (map h l)).
  pose proof (H x (or_introl eq_refl)) as Hx.
  destruct l as [| y l].
  - cbn [map Qsum fold_right]. lra.
  - assert (Qsum (map f (y :: l)) < Qsum (map h (y :: l))).
    { apply IH; [discriminate |]. intros z Hz. apply H. right. exact Hz. }
    lra.
Qed.

Lemma inject_length_pos {A : Type} (l : list A) :
  l <> [] -> 0 < inject_Z (Z.of_nat (length l)).
Proof.
  intro H. destruct l as [| x l]; [contradiction |].
  cbn [length]. rewrite inject_nat_succ.
  pose proof (inject_nat_nonneg (length l)). lra.
Qed.

Lemma np_mean_map {A : Type} (f : A -> Q) (l : list A) :
  l <> [] ->
  np_mean (map f l)
  = Finite (Qsum (map f l) / inject_Z (Z.of_nat (length l))).
Proof.
  intro H. destruct l as [| x l]; [contradiction |].
  cbn [map np_mean length]. rewrite length_map. reflexivity.
Qed.

Lemma Qdiv_nonneg (a c : Q) : 0 <= a -> 0 < c -> 0 <= a / c.
Proof.
  intros Ha Hc. apply Qle_shift_div_l; [exact Hc | lra].
Qed.

Lemma Qdiv_lt_compat (a b c : Q) : a < b -> 0 < c -> a / c < b / c.
Proof.
  intros Hab Hc. apply Qlt_shift_div_l; [exact Hc |].
  assert (E : a / c * c == a) by (field; lra). rewrite E. exact Hab.
Qed.

Lemma stock_loss_zero_lt_wrong (t p alpha : Q) :
  0 <= alpha -> t * p < 0 ->
  stock_loss t 0 (Some alpha) < stock_loss t p (Some alpha).
Proof.
  intros Ha H.
  rewrite (stock_loss_opposite_abs _ _ alpha H).
  rewrite stock_loss_same by lra.
  assert (E : t - 0 == t) by ring. rewrite E.
  destruct (opposite_nonzero _ _ H) as [_ Hp].
  pose proof (Qabs_pos_lt _ Hp). nra.
Qed.

Lemma zip_with_nil_inv {A B C : Type} (f : A -> B -> C)
  (l : list A) (k : list B) :
  length k = length l -> zip_with f l k = [] -> l = [].
Proof.
  destruct l as [| x l]; [reflexivity |].
  destruct k as [| y k]; [discriminate |]. intros _ H. discriminate H.
Qed.

(** The two shapes of a broadcast. *)
Lemma broadcast2_raise (f : Q -> Q -> Q) (x y : list Q) :
  length x <> length y -> length x <> 1%nat -> length y <> 1%nat ->
  broadcast2 f x y = Raise ValueError.
Proof.
  intros Hxy Hx Hy. unfold broadcast2.
  apply Nat.eqb_neq in Hxy. rewrite Hxy.
  destruct x as [| a [| b x]]; destruct y as [| c [| d y]];
    cbn [length] in *; try reflexivity; congruence.
Qed.

Lemma broadcast2_ok (f : Q -> Q -> Q) (x y : list Q) :
  length x = length y \/ length x = 1%nat \/ length y = 1%nat ->
  exists r : list Q, broadcast2 f x y = Ok r.
Proof.
  intro H. unfold broadcast2.
  destruct (Nat.eqb (length x) (length y)) eqn:E; [eexists; reflexivity |].
  apply Nat.eqb_neq in E.
  destruct H as [H | [H | H]]; [contradiction | |].
  - destruct x as [| a [| b x]]; try discriminate H. eexists. reflexivity.
  - destruct y as [| c [| d y]]; try discriminate H.
    destruct x as [| a [| b x]]; eexists; reflexivity.
Qed.

(** X7. With one noise entry per burned sample, the objective of a signal
    at a prediction is a finite, non-negative number when the burned trace
    is non-empty, and it is [nan] exactly when the burned trace is empty;
    it never raises. *)
Theorem exp_value_finite_nonneg
  (trace : list point) (noise : list Q) (signal pred : Q) :
  length noise = length (burned_trace trace) ->
  (burned_trace trace <> [] ->
   exists m : Q,
     exp_value trace noise signal pred = Ok (Finite m) /\ 0 <= m)
  /\ (exp_value trace noise signal pred = Ok NaN
      <-> burned_trace trace = []).
Proof.
  intro Hlen.
  pose proof (returns_population_zip trace noise signal Hlen) as Hpop.
  set (population := zip_with (fun pt n => pt_a pt + pt_b pt * signal + n)
                       (burned_trace trace) noise) in *.
  assert (Hne : burned_trace trace <> [] -> population <> []).
  { intros H E. apply H. apply (zip_with_nil_inv _ _ _ Hlen E). }
  assert (Hfin : burned_trace trace <> [] ->
                 exists m : Q,
                   exp_value trace noise signal pred = Ok (Finite m)
                   /\ 0 <= m).
  { intro H. specialize (Hne H).
    rewrite exp_value_mean, Hpop. cbn [bind].
    rewrite np_mean_map by exact Hne.
    eexists. split; [reflexivity |].
    apply Qdiv_nonneg; [| apply inject_length_pos; exact Hne].
    apply Qsum_map_nonneg. intros R _. apply stock_loss_nonneg. lra. }
  split; [exact Hfin |]. split.
  - intro Hnan. destruct (burned_trace trace) as [| pt l] eqn:E;
      [reflexivity |].
    destruct Hfin as (m & Hm & _); [discriminate |].
    rewrite Hm in Hnan. discriminate Hnan.
  - intro E. rewrite exp_value_mean, Hpop. unfold population.
    rewrite E. reflexivity.
Qed.

Lemma exp_value_finite_nonneg_witness :
  exp_value [] [] 1 0 = Ok NaN <-> burned_trace [] = [].
Proof.
  apply (exp_value_finite_nonneg [] [] 1 0). reflexivity.
Defined.

(** X8. When every simulated return of a signal's non-empty population has
    the sign opposite to a prediction, the objective at that prediction is
    strictly larger than the objective at zero. *)
Theorem wrong_sign_objective_worse
  (trace : list point) (noise population : list Q) (signal pred : Q) :
  returns_population trace noise signal = Ok population ->
  population <> [] ->
  (forall R : Q, In R population -> R * pred < 0) ->
  exists m0 m : Q,
    exp_value trace noise signal 0 = Ok (Finite m0)
    /\ exp_value trace noise signal pred = Ok (Finite m)
    /\ m0 < m.
Proof.
  intros Hpop Hne Hsign.
  do 2 eexists.
  split; [rewrite exp_value_mean, Hpop; cbn [bind];
          rewrite np_mean_map by exact Hne; reflexivity |].
  split; [rewrite exp_value_mean, Hpop; cbn [bind];
          rewrite np_mean_map by exact Hne; reflexivity |].
  apply Qdiv_lt_compat; [| apply inject_length_pos; exact Hne].
  apply Qsum_map_lt; [exact Hne |].
  intros R HR. apply stock_loss_zero_lt_wrong; [lra | apply Hsign; exact HR].
Qed.

Lemma example_population :
  returns_population example_trace [1 # 2; -1 # 4] 1
  = Ok [1 + 2 * 1 + (1 # 2); 3 + -1 * 1 + (-1 # 4)].
Proof.
  rewrite returns_population_zip
    by (rewrite burned_example_trace; reflexivity).
  rewrite burned_example_trace. reflexivity.
Qed.

Lemma wrong_sign_objective_worse_witness :
  exists m0 m : Q,
    exp_value example_trace [1 # 2; -1 # 4] 1 0 = Ok (Finite m0)
    /\ exp_value example_trace [1 # 2; -1 # 4] 1 (-1) = Ok (Finite m)
    /\ m0 < m.
Proof.
  apply (wrong_sign_objective_worse example_trace [1 # 2; -1 # 4]
           [1 + 2 * 1 + (1 # 2); 3 + -1 * 1 + (-1 # 4)] 1 (-1)).
  - exact example_population.
  - discriminate.
  - intros R [<- | [<- | []]]; reflexivity.
Defined.

(** X9. The population of a signal is computed exactly when the noise vector
    has one entry per burned sample or one of the two has a single entry
    (which numpy stretches); for any other pair of lengths
    [returns_population], and with it the objective at every prediction,
    raises [ValueError]. *)
Theorem returns_population_shape_error
  (trace : list point) (noise : list Q) (signal : Q) :
  let n := length (burned_trace trace) in
  let m := length noise in
  ((n = m \/ n = 1%nat \/ m = 1%nat) ->
   exists population : list Q,
     returns_population trace noise signal = Ok population)
  /\ (n <> m /\ n <> 1%nat /\ m <> 1%nat ->
      returns_population trace noise signal = Raise ValueError
      /\ forall pred : Q,
          exp_value trace noise signal pred = Raise ValueError).
Proof.
  cbv zeta.
  assert (Hfirst :
            np_add (a_samples trace)
              (map (fun bi => bi * signal) (b_samples trace))
            = Ok (zip_with Qplus (a_samples trace)
                    (map (fun bi => bi * signal) (b_samples trace)))).
  { apply broadcast2_same_length.
    unfold a_samples, b_samples. rewrite !length_map. reflexivity. }
  assert (Hlen : length (zip_with Qplus (a_samples trace)
                           (map (fun bi => bi * signal) (b_samples trace)))
                 = length (burned_trace trace)).
  { unfold a_samples, b_samples. rewrite length_zip_with, !length_map. lia. }
  split.
  - intro H. unfold returns_population. rewrite Hfirst. cbn [bind].
    apply broadcast2_ok. rewrite Hlen. exact H.
  - intros (H1 & H2 & H3).
    assert (Hr : returns_population trace noise signal = Raise ValueError).
    { unfold returns_population. rewrite Hfirst. cbn [bind].
      apply broadcast2_raise; rewrite ?Hlen; assumption. }
    split; [exact Hr |].
    intro pred. unfold exp_value. rewrite Hr. reflexivity.
Qed.



(** * Further properties of the minimization loop and of a whole run *)

Lemma mapM_py_Raise {A B : Type} (F : A -> py B) (l : list A) (e : exn) :
  mapM_py F l = Raise e ->
  exists (i : nat) (x : A),
    l !! i = Some x
    /\ F x = Raise e
    /\ forall (j : nat) (y : A),
        (j < i)%nat -> l !! j = Some y -> exists r : B, F y = Ok r.
Proof.
  induction l as [| x l IH]; intro H; [discriminate H |].
  cbn [mapM_py] in H. destruct (F x) as [r | e'] eqn:Ex.
  - cbn [bind] in H. destruct (mapM_py F l) as [rs | e''] eqn:El;
      [discriminate H |].
    cbn [bind] in H. injection H as ->.
    destruct (IH eq_refl) as (i & y & Hi & Hy & Hbefore).
    exists (S i), y. split; [exact Hi |]. split; [exact Hy |].
    intros [| j] z Hj Hz.
    + injection Hz as <-. exists r. exact Ex.
    + apply (Hbefore j z); [lia | exact Hz].
  - cbn [bind] in H. injection H as ->.
    exists 0%nat, x. split; [reflexivity |]. split; [exact Ex |].
    intros j y Hj. lia.
Qed.

Lemma example_shape_error (signal pred : Q) :
  exp_value example_trace [1; 2; 3] signal pred = Raise ValueError.
Proof.
  unfold exp_value, returns_population, a_samples, b_samples.
  rewrite burned_example_trace. reflexivity.
Qed.

(** X14. The loop raises nothing of its own: when it stops with an
    exception, that exception was raised by the minimiser (or by the
    objective inside it) for some grid entry, and the minimiser had returned
    for every earlier entry. *)
Theorem loop_raises_only_from_fmin
  (fmin : (Q -> py scalar) -> Q -> py Q)
  (trace : list point) (noise sigs : list Q) (e : exn) :
  opt_predictions fmin trace noise sigs = Raise e ->
  exists (i : nat) (signal : Q),
    sigs !! i = Some signal
    /\ fmin (exp_value trace noise signal) 0 = Raise e
    /\ forall (j : nat) (s : Q),
        (j < i)%nat -> sigs !! j = Some s ->
        exists r : Q, fmin (exp_value trace noise s) 0 = Ok r.
Proof.
  intro H. rewrite opt_predictions_mapM in H.
  apply (mapM_py_Raise _ _ _ H).
Qed.

Lemma loop_raises_only_from_fmin_witness :
  exists (i : nat) (signal : Q),
    [1; 2] !! i = Some signal
    /\ fmin_start (exp_value example_trace [1; 2; 3] signal) 0
       = Raise ValueError.
Proof.
  destruct (loop_raises_only_from_fmin fmin_start example_trace
              [1; 2; 3] [1; 2] ValueError)
    as (i & signal & Hi & He & _).
  - rewrite opt_predictions_mapM. cbn [mapM_py]. unfold fmin_start at 1.
    rewrite example_shape_error. reflexivity.
  - exists i, signal. split; [exact Hi | exact He].
Defined.



(** * The shape of the loss as a function of the prediction *)

Lemma stock_loss_nonneg_true (t p alpha : Q) :
  0 <= t ->
  (p < 0 -> stock_loss t p (Some alpha) == alpha * p ^ 2 - p + t \/ t == 0)
  /\ (0 <= p -> stock_loss t p (Some alpha) == Qabs (t - p)).
Proof.
  intro Ht. split.
  - intro Hp. destruct (Qeq_dec t 0) as [E | E]; [right; exact E | left].
    assert (H : t * p < 0) by nra.
    rewrite (stock_loss_opposite _ _ alpha H).
    rewrite np_sign_pos by lra. rewrite Qabs_pos_eq by lra. ring.
  - intro Hp. rewrite stock_loss_same by nra. reflexivity.
Qed.

Lemma stock_loss_zero_true (t p alpha : Q) :
  t == 0 -> stock_loss t p (Some alpha) == Qabs p.
Proof.
  intro E. rewrite stock_loss_same by (rewrite E; lra).
  assert (E' : t - p == - p) by lra. rewrite E'. apply Qabs_opp.
Qed.

(** X19. For a true return that is not negative and [alpha >= 0], the loss
    strictly decreases as the prediction rises towards the true return,
    across zero included, and strictly increases beyond it: the true return
    is the only minimiser. *)
Theorem stock_loss_unimodal (true_return p1 p2 alpha : Q) :
  0 <= alpha ->
  0 <= true_return ->
  p1 < p2 ->
  (p2 <= true_return ->
   stock_loss true_return p2 (Some alpha)
   < stock_loss true_return p1 (Some alpha))
  /\ (true_return <= p1 ->
      stock_loss true_return p1 (Some alpha)
      < stock_loss true_return p2 (Some alpha)).
Proof.
  intros Ha Ht Hlt.
  destruct (Qeq_dec true_return 0) as [E0 | NE].
  - rewrite !(stock_loss_zero_true true_return _ alpha E0).
    split; intro H.
    + rewrite !Qabs_neg_eq by lra. lra.
    + rewrite !Qabs_pos_eq by lra. lra.
  - destruct (stock_loss_nonneg_true true_return p1 alpha Ht) as [Hn1 Hp1].
    destruct (stock_loss_nonneg_true true_return p2 alpha Ht) as [Hn2 Hp2].
    split.
    + intro Hle.
      destruct (Qlt_le_dec p2 0) as [H2 | H2].
      * destruct (Hn2 H2) as [E2 | E0]; [| contradiction].
        destruct (Hn1 ltac:(lra)) as [E1 | E0]; [| contradiction].
        rewrite E1, E2.
        assert (Hsq : 0 <= p1 ^ 2 - p2 ^ 2) by nra.
        assert (0 <= alpha * (p1 ^ 2 - p2 ^ 2))
          by (apply Qmult_le_0_compat; lra).
        lra.
      * rewrite (Hp2 H2). rewrite Qabs_pos_eq by lra.
        destruct (Qlt_le_dec p1 0) as [H1 | H1].
        -- destruct (Hn1 H1) as [E1 | E0]; [| contradiction].
           rewrite E1. nra.
        -- rewrite (Hp1 H1). rewrite Qabs_pos_eq by lra. lra.
    + intro Hge.
      rewrite (Hp1 ltac:(lra)), (Hp2 ltac:(lra)).
      rewrite !Qabs_neg_eq by lra. lra.
Qed.

Lemma stock_loss_unimodal_witness :
  stock_loss (5 # 100) (1 # 100) (Some 100)
  < stock_loss (5 # 100) (-1 # 100) (Some 100).
Proof.
  apply (stock_loss_unimodal (5 # 100) (-1 # 100) (1 # 100) 100);
    try reflexivity; discriminate.
Defined.
